(** * The client-side image cache (lib/image-cache): a shallow embedding

    The cache manager of the chat UI keeps fetched images in an IndexedDB
    object store keyed by URL, serves them as object URLs, expires them
    after seven days and converts them to data URIs.  Every method of
    [ImageCacheManager] is asynchronous; here a method is a function from
    the world before the call to its settled promise (resolved or
    rejected) and the world after it.  The browser collaborators
    (indexedDB, fetch, FileReader) are described by an environment that
    says how each of them answers during one call. *)

From Stdlib Require Import ZArith String.
From stdpp Require Import base gmap strings pretty list fin_maps.

Local Open Scope string_scope.
Local Open Scope Z_scope.

(** ** Data model *)

(** A [Blob]: a content type and its bytes. *)
Record Blob := mkBlob {
  blob_type : string;
  blob_bytes : list N
}.

(** interface CachedImage { url; blob; timestamp; messageId? } *)
Record CachedImage := mkCachedImage {
  url : string;
  blob : Blob;
  timestamp : Z;
  messageId : option string
}.

Definition DB_VERSION : Z := 1.

(** const CACHE_EXPIRY = 7 * 24 * 60 * 60 * 1000; // 7 days *)
Definition CACHE_EXPIRY : Z := 7 * 24 * 60 * 60 * 1000.

(** What a rejected promise carries. *)
Inductive Error :=
  | OpenError                     (* request.error of indexedDB.open *)
  | DatabaseNotInitialized        (* new Error('Database not initialized') *)
  | TransactionError              (* this.db.transaction(...) threw *)
  | FetchTransportError           (* fetch(url) rejected *)
  | FetchStatusError (status : Z) (* new Error(`Failed to fetch image: ${status}`) *)
  | PutError                      (* request.error of store.put *)
  | ReaderError.                  (* reader.error of FileReader *)

(** The answer of [fetch]: a rejection, or a response with its status and
    body ([response.ok] is status in 200..299). *)
Inductive NetResponse :=
  | NetFailure
  | NetResponseOf (status : Z) (body : Blob).

Definition response_ok (status : Z) : bool :=
  (200 <=? status) && (status <=? 299).

(** How store.put ends.  The code awaits the request only
    (onsuccess / onerror) and puts no handler on the transaction, so a
    write can fail in two ways: the request fires onerror, or the request
    fires onsuccess and the transaction aborts afterwards (for instance a
    quota error at commit), which the caller never learns. *)
Inductive PutOutcome :=
  | PutCommitted        (* onsuccess, and the transaction commits *)
  | PutRequestError     (* onerror *)
  | PutCommitAbort.     (* onsuccess, then the transaction aborts *)

(** How the collaborators answer during one call. *)
Record Env := mkEnv {
  open_ok : bool;                     (* indexedDB.open fires onsuccess *)
  tx_ok : bool;                       (* db.transaction(...) does not throw *)
  get_ok : bool;                      (* store.get fires onsuccess *)
  put_outcome : PutOutcome;           (* store.put *)
  del_ok : bool;                      (* store.delete / cursor.delete succeed *)
  count_ok : bool;                    (* store.count fires onsuccess *)
  net : string -> NetResponse;        (* fetch *)
  net_delay : Z;                      (* time the fetch takes *)
  read_as_data_url : Blob -> option string  (* FileReader; None is onerror *)
}.

(** The put writes the record: the request succeeds and the transaction
    commits. *)
Definition put_ok (env : Env) : bool :=
  match put_outcome env with
  | PutCommitted => true
  | PutRequestError | PutCommitAbort => false
  end.

(** The put request fires onerror: the awaited promise rejects. *)
Definition put_rejects (env : Env) : bool :=
  match put_outcome env with
  | PutRequestError => true
  | PutCommitted | PutCommitAbort => false
  end.

(** The world: the persistent object store 'images', the two fields of the
    manager ([db], [isInitialized]), the registry of object URLs of the
    page, the clock read by [Date.now()], and three observation logs: the
    open requests issued, the transactions created and the URLs fetched
    (most recent first). *)
Record World := mkWorld {
  images : gmap string CachedImage;
  db : option nat;
  isInitialized : bool;
  opens : nat;
  txs : nat;
  fetches : list string;
  clock : Z;
  object_urls : gmap string Blob;
  next_url : nat
}.

Definition with_images (f : gmap string CachedImage -> gmap string CachedImage)
    (w : World) : World :=
  mkWorld (f (images w)) (db w) (isInitialized w) (opens w) (txs w)
          (fetches w) (clock w) (object_urls w) (next_url w).

Definition with_clock (t : Z) (w : World) : World :=
  mkWorld (images w) (db w) (isInitialized w) (opens w) (txs w)
          (fetches w) t (object_urls w) (next_url w).

(** A fresh page: empty store, nothing opened. *)
Definition fresh_world (t : Z) : World :=
  mkWorld ∅ None false 0 0 [] t ∅ 0.

(** ** Promises as an error-and-state monad *)

Inductive Outcome (A : Type) :=
  | Resolved (a : A)
  | Rejected (e : Error).
Arguments Resolved {A} a.
Arguments Rejected {A} e.

Definition Async (A : Type) : Type := World -> Outcome A * World.

Definition ret {A} (a : A) : Async A := fun w => (Resolved a, w).

Definition throw {A} (e : Error) : Async A := fun w => (Rejected e, w).

Definition bind {A B} (m : Async A) (k : A -> Async B) : Async B :=
  fun w =>
    match m w with
    | (Resolved a, w') => k a w'
    | (Rejected e, w') => (Rejected e, w')
    end.

(** try { body } catch (error) { handler error } *)
Definition try_catch {A} (body : Async A) (handler : Error -> Async A) : Async A :=
  fun w =>
    match body w with
    | (Resolved a, w') => (Resolved a, w')
    | (Rejected e, w') => handler e w'
    end.

Notation "'await' x <- m 'in' k" := (bind m (fun x => k))
  (at level 10, x name, m at level 100, k at level 200,
   format "'[v' 'await'  x  <-  m  'in' '/' k ']'").
Notation "'perform' m 'in' k" := (bind m (fun _ => k))
  (at level 10, m at level 100, k at level 200,
   format "'[v' 'perform'  m  'in' '/' k ']'").

(** ** The browser primitives *)

(** Date.now() *)
Definition date_now : Async Z := fun w => (Resolved (clock w), w).

(** this.db *)
Definition this_db : Async (option nat) := fun w => (Resolved (db w), w).

(** this.db.transaction([STORE_NAME], mode) followed by objectStore. *)
Definition transaction (env : Env) : Async unit := fun w =>
  let w' := mkWorld (images w) (db w) (isInitialized w) (opens w) (S (txs w))
                    (fetches w) (clock w) (object_urls w) (next_url w) in
  if tx_ok env then (Resolved tt, w') else (Rejected TransactionError, w').

(** store.get(url): [Some result] on onsuccess (the result may be
    undefined), [None] on onerror. *)
Definition store_get (env : Env) (u : string) : Async (option (option CachedImage)) :=
  fun w => (Resolved (if get_ok env then Some (images w !! u) else None), w).

(** store.put(cachedImage) awaited: the key path is 'url'.  The promise
    settles with the request; a transaction that aborts after onsuccess
    leaves the store without the record. *)
Definition store_put (env : Env) (c : CachedImage) : Async unit := fun w =>
  match put_outcome env with
  | PutCommitted => (Resolved tt, with_images (insert (url c) c) w)
  | PutRequestError => (Rejected PutError, w)
  | PutCommitAbort => (Resolved tt, w)
  end.

(** store.delete(url), not awaited and without handlers. *)
Definition store_delete (env : Env) (u : string) : Async unit := fun w =>
  (Resolved tt, if del_ok env then with_images (delete u) w else w).

(** fetch(url) followed by response.blob(): logged, takes [net_delay];
    a rejection of either is [NetFailure]. *)
Definition fetch (env : Env) (u : string) : Async (Z * Blob) := fun w =>
  let w' := mkWorld (images w) (db w) (isInitialized w) (opens w) (txs w)
                    (u :: fetches w) (clock w + net_delay env)
                    (object_urls w) (next_url w) in
  match net env u with
  | NetFailure => (Rejected FetchTransportError, w')
  | NetResponseOf status body => (Resolved (status, body), w')
  end.

(** URL.createObjectURL(blob): a new URL on every call. *)
Definition object_url_of (n : nat) : string := "blob:" +:+ pretty n.

Definition createObjectURL (b : Blob) : Async string := fun w =>
  let u := object_url_of (next_url w) in
  (Resolved u,
   mkWorld (images w) (db w) (isInitialized w) (opens w) (txs w)
           (fetches w) (clock w) (<[u := b]> (object_urls w)) (S (next_url w))).

(** new FileReader().readAsDataURL(blob) awaited. *)
Definition readAsDataURL (env : Env) (b : Blob) : Async string := fun w =>
  match read_as_data_url env b with
  | Some s => (Resolved s, w)
  | None => (Rejected ReaderError, w)
  end.

(** ** ImageCacheManager *)

(** async init(): returns at once when [isInitialized]; otherwise issues
    indexedDB.open and settles with its request.  onupgradeneeded creates
    the object store 'images' (key path 'url', indexes 'timestamp' and
    'messageId') when it does not exist: the store of the world is that
    object store.  The global indexedDB is taken to exist; where it is
    missing the call throws inside the executor, the promise rejects as
    for a failed open and no request is issued, so the log of open
    requests then counts one too many. *)
Definition init (env : Env) : Async unit := fun w =>
  if isInitialized w then (Resolved tt, w)
  else
    if open_ok env then
      (Resolved tt,
       mkWorld (images w) (Some (opens w)) true (S (opens w)) (txs w)
               (fetches w) (clock w) (object_urls w) (next_url w))
    else
      (Rejected OpenError,
       mkWorld (images w) (db w) (isInitialized w) (S (opens w)) (txs w)
               (fetches w) (clock w) (object_urls w) (next_url w)).

(** async removeCachedImage(url) *)
Definition removeCachedImage (env : Env) (u : string) : Async unit :=
  try_catch
    (perform init env in
     await d <- this_db in
     match d with
     | None => ret tt
     | Some _ =>
         perform transaction env in
         store_delete env u
     end)
    (fun _ => ret tt).

(** Date.now() - result.timestamp < CACHE_EXPIRY *)
Definition still_valid (now : Z) (c : CachedImage) : bool :=
  now - timestamp c <? CACHE_EXPIRY.

(** async getCachedImage(url): the promise of removeCachedImage is not
    awaited; its transaction is created before any later one of the
    caller, so its delete is ordered before the caller's later requests. *)
Definition getCachedImage (env : Env) (u : string) : Async (option string) :=
  try_catch
    (perform init env in
     await d <- this_db in
     match d with
     | None => ret None
     | Some _ =>
         perform transaction env in
         await r <- store_get env u in
         match r with
         | Some (Some result) =>
             await now <- date_now in
             if still_valid now result then
               await o <- createObjectURL (blob result) in
               ret (Some o)
             else
               perform removeCachedImage env u in
               ret None
         | Some None => ret None
         | None => ret None
         end
     end)
    (fun _ => ret None).

(** private async getCachedImageBlob(url) *)
Definition getCachedImageBlob (env : Env) (u : string) : Async (option Blob) :=
  try_catch
    (perform init env in
     await d <- this_db in
     match d with
     | None => ret None
     | Some _ =>
         perform transaction env in
         await r <- store_get env u in
         match r with
         | Some (Some result) =>
             await now <- date_now in
             if still_valid now result then ret (Some (blob result))
             else
               perform removeCachedImage env u in
               ret None
         | Some None => ret None
         | None => ret None
         end
     end)
    (fun _ => ret None).

(** JavaScript truthiness of a [string | null]: null and the empty string
    are falsy. *)
Definition truthy (o : option string) : option string :=
  match o with
  | Some EmptyString => None
  | other => other
  end.

(** The part of cacheImage and urlToBase64 after a miss: fetch, test
    response.ok, read the body, put the record. *)
Definition fetch_and_put (env : Env) (u : string) (mid : option string) : Async Blob :=
  await response <- fetch env u in
  if negb (response_ok (fst response)) then throw (FetchStatusError (fst response))
  else
    let b := snd response in
    await now <- date_now in
    perform transaction env in
    perform store_put env (mkCachedImage u b now mid) in
    ret b.

(** async cacheImage(url, messageId?) *)
Definition cacheImage (env : Env) (u : string) (mid : option string) : Async string :=
  try_catch
    (perform init env in
     await d <- this_db in
     match d with
     | None => throw DatabaseNotInitialized
     | Some _ =>
         await cached <- getCachedImage env u in
         match truthy cached with
         | Some c => ret c
         | None =>
             await b <- fetch_and_put env u mid in
             createObjectURL b
         end
     end)
    (fun _ => ret u).

(** async urlToBase64(url) *)
Definition urlToBase64 (env : Env) (u : string) : Async string :=
  try_catch
    (perform init env in
     await d <- this_db in
     match d with
     | None => throw DatabaseNotInitialized
     | Some _ =>
         await cached <- getCachedImageBlob env u in
         await b <- match cached with
                    | Some c => ret c
                    | None => fetch_and_put env u None
                    end in
         readAsDataURL env b
     end)
    (fun e => throw e).

(** index.openCursor(IDBKeyRange.upperBound(cutoff)) on the index
    'timestamp': the primary keys of the records whose timestamp is at
    most [cutoff] (the bound is inclusive). *)
Definition index_upper_bound (cutoff : Z) (m : gmap string CachedImage) : list string :=
  (map_to_list (filter (fun kv => timestamp (snd kv) <= cutoff) m)).*1.

(** The cursor loop: cursor.delete(); cursor.continue() until the cursor
    is null.  The loop runs in later turns of the event loop, inside the
    one transaction of the sweep; the model runs it to its end. *)
Fixpoint cursor_delete_all (keys : list string) (m : gmap string CachedImage)
    : gmap string CachedImage :=
  match keys with
  | [] => m
  | k :: rest => cursor_delete_all rest (delete k m)
  end.

Definition sweep_cursor (env : Env) (cutoff : Z) : Async unit := fun w =>
  (Resolved tt,
   if del_ok env
   then with_images (fun m => cursor_delete_all (index_upper_bound cutoff m) m) w
   else w).

(** async clearExpiredCache() *)
Definition clearExpiredCache (env : Env) : Async unit :=
  try_catch
    (perform init env in
     await d <- this_db in
     match d with
     | None => ret tt
     | Some _ =>
         perform transaction env in
         await now <- date_now in
         let cutoff := now - CACHE_EXPIRY in
         sweep_cursor env cutoff
     end)
    (fun _ => ret tt).

(** store.count(): resolve(request.result) on onsuccess, resolve(0) on
    onerror. *)
Definition store_count (env : Env) : Async nat := fun w =>
  (Resolved (if count_ok env then size (images w) else 0%nat), w).

(** async getCacheSize() *)
Definition getCacheSize (env : Env) : Async nat :=
  try_catch
    (perform init env in
     await d <- this_db in
     match d with
     | None => ret 0%nat
     | Some _ =>
         perform transaction env in
         store_count env
     end)
    (fun _ => ret 0%nat).

(** ** The React hook useCachedImage *)

Record HookState := mkHookState {
  cachedUrl : option string;
  isLoading : bool
}.

(** The effect of useCachedImage(url, messageId), run to the settlement
    of the promise chain it starts. *)
Definition useCachedImage (env : Env) (u : option string) (mid : option string)
    (st : HookState) (w : World) : HookState * World :=
  match truthy u with
  | None => (mkHookState None (isLoading st), w)
  | Some s =>
      if String.prefix "blob:" s || String.prefix "data:" s then
        (mkHookState (Some s) (isLoading st), w)
      else
        match cacheImage env s mid w with
        | (Resolved c, w') => (mkHookState (Some c) false, w')
        | (Rejected _, w') => (mkHookState (Some s) false, w')
        end
  end.

(** ** init under interleaving

    The body of init runs in two turns of the event loop: the call tests
    [isInitialized] and issues the open request; later the request fires
    onsuccess or onerror.  Calls made between the two turns see the flag
    still unset.  The state is the world and the queue of open requests in
    flight (oldest first), each named by its rank among the opens. *)
Inductive InitEvent :=
  | InitCalled
  | OpenSettled (ok : bool).

Definition init_step (ev : InitEvent) (s : World * list nat) : World * list nat :=
  let w := fst s in
  match ev with
  | InitCalled =>
      if isInitialized w then s
      else
        (mkWorld (images w) (db w) (isInitialized w) (S (opens w)) (txs w)
                 (fetches w) (clock w) (object_urls w) (next_url w),
         (snd s ++ [opens w])%list)
  | OpenSettled ok =>
      match snd s with
      | [] => s
      | r :: rest =>
          if ok then
            (mkWorld (images w) (Some r) true (opens w) (txs w)
                     (fetches w) (clock w) (object_urls w) (next_url w),
             rest)
          else (w, rest)
      end
  end.

Definition init_steps (evs : list InitEvent) (s : World * list nat) : World * list nat :=
  foldl (fun acc ev => init_step ev acc) s evs.

(** ** Conditions on a call, as the code tests them *)

(** The store can be used by this call: already initialised with a
    handle, or opened successfully now. *)
Definition store_available (env : Env) (w : World) : bool :=
  if isInitialized w then
    match db w with Some _ => true | None => false end
  else open_ok env.

(** The world once init has succeeded. *)
Definition after_init (w : World) : World :=
  if isInitialized w then w
  else mkWorld (images w) (Some (opens w)) true (S (opens w)) (txs w)
               (fetches w) (clock w) (object_urls w) (next_url w).

(** The lookup of [u] yields content: the transaction and the get
    succeed and the record is still valid. *)
Definition lookup_hits (env : Env) (w : World) (u : string) : bool :=
  tx_ok env && get_ok env &&
  match images w !! u with
  | Some c => still_valid (clock w) c
  | None => false
  end.

(** The lookup of [u] removes an expired record. *)
Definition lazily_deleted (env : Env) (w : World) (u : string) : bool :=
  tx_ok env && get_ok env && del_ok env &&
  match images w !! u with
  | Some c => negb (still_valid (clock w) c)
  | None => false
  end.

(** fetch(url) rejects or answers with a status outside 200..299. *)
Definition fetch_failed (env : Env) (u : string) : bool :=
  match net env u with
  | NetFailure => true
  | NetResponseOf status _ => negb (response_ok status)
  end.

(** The error that a failed fetch raises in the caller. *)
Definition fetch_error (env : Env) (u : string) : Error :=
  match net env u with
  | NetFailure => FetchTransportError
  | NetResponseOf status _ => FetchStatusError status
  end.

(** cacheImage ends in its catch block: the store is unavailable, or the
    lookup misses and the fetch, the transaction or the put request
    fails. *)
Definition cacheImage_fails (env : Env) (w : World) (u : string) : bool :=
  negb (store_available env w) ||
  (negb (lookup_hits env w u) &&
   (fetch_failed env u || negb (tx_ok env) || put_rejects env)).

(** The store after the lookup of [u]. *)
Definition images_after_lookup (env : Env) (w : World) (u : string)
    : gmap string CachedImage :=
  if lazily_deleted env w u then delete u (images w) else images w.

(** The record is expired at [now]: its age is at least CACHE_EXPIRY. *)
Definition expired_at (now : Z) (c : CachedImage) : bool :=
  CACHE_EXPIRY <=? now - timestamp c.

(** The records a lookup at the current time would serve. *)
Definition servable (w : World) : gmap string CachedImage :=
  filter (fun kv => still_valid (clock w) (snd kv) = true) (images w).

(** ** A scenario: one JPEG behind one URL *)

Definition photo : string := "https://example.com/a.jpg".

Definition jpeg : Blob := mkBlob "image/jpeg" [255%N; 216%N; 255%N; 224%N].

Definition reader (b : Blob) : option string :=
  Some ("data:" +:+ blob_type b +:+ ";base64,/9j/4A==").

(** Every collaborator answers; the fetch takes 5 ms. *)
Definition env_ok : Env :=
  mkEnv true true true PutCommitted true true (fun _ => NetResponseOf 200 jpeg) 5 reader.

(** The server answers 500. *)
Definition env_500 : Env :=
  mkEnv true true true PutCommitted true true
        (fun _ => NetResponseOf 500 (mkBlob "text/plain" [])) 5 reader.

(** The put request fires onerror (quota exceeded, reported on the
    request); the fetch succeeds. *)
Definition env_quota : Env :=
  mkEnv true true true PutRequestError true true (fun _ => NetResponseOf 200 jpeg) 5 reader.

(** The put request succeeds and its transaction aborts at commit
    (quota exceeded, reported on the transaction); the fetch succeeds. *)
Definition env_commit_abort : Env :=
  mkEnv true true true PutCommitAbort true true (fun _ => NetResponseOf 200 jpeg) 5 reader.

(** indexedDB.open fails; the fetch would succeed. *)
Definition env_no_store : Env :=
  mkEnv false true true PutCommitted true true (fun _ => NetResponseOf 200 jpeg) 5 reader.

Definition one_hour : Z := 60 * 60 * 1000.
Definition eight_days : Z := 8 * 24 * 60 * 60 * 1000.

Definition stale_entry : CachedImage := mkCachedImage photo jpeg 0 None.

(** An initialised manager whose store holds [photo], stored eight days
    ago. *)
Definition stale_world : World :=
  mkWorld {[ photo := stale_entry ]} (Some 0%nat) true 1 0 [] eight_days ∅ 0.

(** The same store with a second record stored one hour ago. *)
Definition mixed_world : World :=
  mkWorld (<[ "https://example.com/b.png" :=
               mkCachedImage "https://example.com/b.png" jpeg
                             (eight_days - one_hour) None ]>
             {[ photo := stale_entry ]})
          (Some 0%nat) true 1 0 [] eight_days ∅ 0.

(** ** An invariant of the manager *)

(** A manager that believes it is initialised holds a handle. *)
Definition handle_consistent (w : World) : Prop :=
  isInitialized w = true -> is_Some (db w).

(** ** Clients of the singleton *)

(** One use of the exported [imageCache] (or the passing of time). *)
Inductive Call :=
  | CallCacheImage (u : string) (mid : option string)
  | CallGetCachedImage (u : string)
  | CallRemoveCachedImage (u : string)
  | CallClearExpiredCache
  | CallGetCacheSize
  | CallUrlToBase64 (u : string)
  | Elapse (dt : Z).

Definition do_call (env : Env) (c : Call) (w : World) : World :=
  match c with
  | CallCacheImage u mid => snd (cacheImage env u mid w)
  | CallGetCachedImage u => snd (getCachedImage env u w)
  | CallRemoveCachedImage u => snd (removeCachedImage env u w)
  | CallClearExpiredCache => snd (clearExpiredCache env w)
  | CallGetCacheSize => snd (getCacheSize env w)
  | CallUrlToBase64 u => snd (urlToBase64 env u w)
  | Elapse dt => with_clock (clock w + dt) w
  end.

(** A session: calls made one after the other, each with the answers of
    the collaborators during it. *)
Definition do_calls (session : list (Env * Call)) (w : World) : World :=
  foldl (fun acc ec => do_call (fst ec) (snd ec) acc) w session.

(** [n] calls of init, each settled (successfully) before the next. *)
Fixpoint sequential_inits (n : nat) : list InitEvent :=
  match n with
  | O => []
  | S n' => InitCalled :: OpenSettled true :: sequential_inits n'
  end.

(** ** The component that shows a cached image *)

(** src={cachedUrl || imageSrc} of MultimodalPreview, where imageSrc is
    the URL given to the hook. *)
Definition displayed_src (cached : option string) (src : string) : string :=
  match truthy cached with
  | Some c => c
  | None => src
  end.

(** The FileReader fails; everything else answers. *)
Definition env_unreadable : Env :=
  mkEnv true true true PutCommitted true true (fun _ => NetResponseOf 200 jpeg) 5
        (fun _ => None).

(** ** Proof automation: run a method symbolically *)

Ltac unfold_async :=
  unfold cacheImage, urlToBase64, getCachedImage, getCachedImageBlob,
    removeCachedImage, clearExpiredCache, getCacheSize, fetch_and_put,
    sweep_cursor, store_count, try_catch, bind, init, this_db, transaction,
    store_get, store_put, store_delete, fetch, createObjectURL, readAsDataURL,
    date_now, ret, throw in *.

Ltac unfold_conditions :=
  unfold cacheImage_fails, images_after_lookup, lazily_deleted, lookup_hits,
    store_available, after_init, fetch_failed, fetch_error, put_ok,
    put_rejects, with_images, with_clock in *.

(** Case analysis on whatever the code branches on next, using the
    hypotheses that already decide a branch. *)
Ltac split_cases :=
  repeat (simpl in *; rewrite ?andb_false_r, ?andb_true_r in *; try discriminate;
    match goal with
    | H : ?x = _ |- context [match ?x with _ => _ end] => rewrite H
    | H : ?x = _, H' : context [match ?x with _ => _ end] |- _ => rewrite H in H'
    | H : ?x = true, H' : context [?x] |- _ => rewrite H in H'
    | H : ?x = false, H' : context [?x] |- _ => rewrite H in H'
    | |- context [match ?x with _ => _ end] =>
        lazymatch x with
        | context [match _ with _ => _ end] => fail
        | _ => destruct x eqn:?
        end
    | H : context [match ?x with _ => _ end] |- _ =>
        lazymatch x with
        | context [match _ with _ => _ end] => fail
        | _ => destruct x eqn:?
        end
    end).

Ltac run_method w :=
  unfold_async; unfold_conditions; destruct w; split_cases.

(** ** Basic facts *)

Lemma CACHE_EXPIRY_value : CACHE_EXPIRY = 604800000.
Proof. reflexivity. Qed.

Lemma still_valid_true now c :
  still_valid now c = true <-> now - timestamp c < CACHE_EXPIRY.
Proof. unfold still_valid. apply Z.ltb_lt. Qed.

Lemma still_valid_false now c :
  still_valid now c = false <-> CACHE_EXPIRY <= now - timestamp c.
Proof. unfold still_valid. apply Z.ltb_ge. Qed.

Lemma object_url_of_inj n m : object_url_of n = object_url_of m -> n = m.
Proof.
  unfold object_url_of. intros H.
  apply (inj (String.append "blob:")) in H.
  by apply (inj pretty) in H.
Qed.

Lemma object_url_of_truthy n : truthy (Some (object_url_of n)) = Some (object_url_of n).
Proof. reflexivity. Qed.

Lemma prefix_nonempty p s a :
  String.prefix (String a p) s = true -> truthy (Some s) = Some s.
Proof. destruct s; [discriminate | reflexivity]. Qed.

(** ** init *)

Lemma init_available env w :
  store_available env w = true ->
  init env w = (Resolved tt, after_init w)
  /\ isInitialized (after_init w) = true
  /\ is_Some (db (after_init w)).
Proof. intros Hs. run_method w; simplify_eq; eauto. Qed.

(** The sequential init is the call followed at once by the settlement
    of its own request. *)
Lemma init_as_steps env w :
  isInitialized w = false ->
  init_steps [InitCalled; OpenSettled (open_ok env)] (w, []) = (snd (init env w), []).
Proof.
  intros Hi. unfold init_steps, init_step, init. destruct w; simpl in *.
  rewrite Hi. simpl. by destruct (open_ok env).
Qed.

(** ** cacheImage: soft failure *)

(** C1. cacheImage never rejects, whatever the collaborators do: its
    promise always resolves, with the original URL when the call fails
    (store unavailable, or a miss followed by a failed fetch, transaction
    or put request) and with a newly minted object URL, registered for a
    blob, otherwise. *)
Theorem cacheImage_never_rejects
    (env : Env) (u : string) (mid : option string) (w : World) :
  exists w',
    cacheImage env u mid w =
      (Resolved (if cacheImage_fails env w u then u
                 else object_url_of (next_url w)), w')
    /\ (cacheImage_fails env w u = true
        \/ is_Some (object_urls w' !! object_url_of (next_url w))).
Proof.
  run_method w.
  all: eexists; (split; [reflexivity|]).
  all: first [by left | right; simpl; rewrite lookup_insert_eq; eauto].
Qed.

(** ** cacheImage: hits and misses *)

Lemma cacheImage_hit env u mid w c :
  store_available env w = true -> tx_ok env = true -> get_ok env = true ->
  images w !! u = Some c -> still_valid (clock w) c = true ->
  let r := cacheImage env u mid w in
  fst r = Resolved (object_url_of (next_url w))
  /\ fetches (snd r) = fetches w
  /\ images (snd r) = images w
  /\ object_urls (snd r) = <[object_url_of (next_url w) := blob c]> (object_urls w)
  /\ next_url (snd r) = S (next_url w).
Proof.
  intros Hs Ht Hg Hc Hv.
  run_method w; simplify_eq; auto.
Qed.

(** A miss with the store available fetches exactly once, whatever the
    fetch and the put answer. *)
Lemma cacheImage_miss_fetches_once env u mid w :
  store_available env w = true -> lookup_hits env w u = false ->
  fetches (snd (cacheImage env u mid w)) = u :: fetches w.
Proof.
  intros Hs Hl. run_method w; simplify_eq; auto.
Qed.

Lemma cacheImage_miss_stores env u mid w status body :
  store_available env w = true -> lookup_hits env w u = false ->
  net env u = NetResponseOf status body -> response_ok status = true ->
  tx_ok env = true -> put_ok env = true ->
  let r := cacheImage env u mid w in
  fst r = Resolved (object_url_of (next_url w))
  /\ fetches (snd r) = u :: fetches w
  /\ images (snd r) =
       <[u := mkCachedImage u body (clock w + net_delay env) mid]>
         (images_after_lookup env w u)
  /\ clock (snd r) = clock w + net_delay env
  /\ object_urls (snd r) = <[object_url_of (next_url w) := body]> (object_urls w)
  /\ next_url (snd r) = S (next_url w)
  /\ isInitialized (snd r) = true
  /\ is_Some (db (snd r)).
Proof.
  intros Hs Hl Hn Hr Ht Hp.
  run_method w; simplify_eq; auto 10.
Qed.

(** C2. A URL with no record in the store: cacheImage fetches it exactly
    once; a second cacheImage of the same URL at a time [t] within
    CACHE_EXPIRY of the insertion fetches nothing and resolves with a new
    object URL, different from the first one, registered for the stored
    blob.  (The collaborators answer: the store is available, the fetch
    is a 2xx response, the put and the later get succeed.) *)
Theorem cacheImage_fetches_once_then_hits
    (env1 env2 : Env) (u : string) (mid1 mid2 : option string) (w : World)
    (status : Z) (body : Blob) (t : Z) :
  images w !! u = None ->
  store_available env1 w = true -> tx_ok env1 = true -> put_ok env1 = true ->
  net env1 u = NetResponseOf status body -> response_ok status = true ->
  tx_ok env2 = true -> get_ok env2 = true ->
  let first := cacheImage env1 u mid1 w in
  let second := cacheImage env2 u mid2 (with_clock t (snd first)) in
  t - clock (snd first) < CACHE_EXPIRY ->
  fetches (snd first) = u :: fetches w
  /\ fetches (snd second) = fetches (snd first)
  /\ exists r1 r2,
       fst first = Resolved r1 /\ fst second = Resolved r2 /\ r1 <> r2
       /\ images (snd first) !! u =
            Some (mkCachedImage u body (clock (snd first)) mid1)
       /\ object_urls (snd second) !! r2 = Some body.
Proof.
  intros Hnone Hs Ht Hp Hn Hr Ht2 Hg2 first second Httl.
  assert (Hmiss : lookup_hits env1 w u = false).
  { unfold lookup_hits. rewrite Hnone. apply andb_false_r. }
  destruct (cacheImage_miss_stores env1 u mid1 w status body Hs Hmiss Hn Hr Ht Hp)
    as (Hr1 & Hf1 & Hi1 & Hc1 & Ho1 & Hn1 & Hini1 & Hdb1).
  fold first in Hr1, Hf1, Hi1, Hc1, Ho1, Hn1, Hini1, Hdb1.
  set (c := mkCachedImage u body (clock w + net_delay env1) mid1) in *.
  assert (Hc : images (with_clock t (snd first)) !! u = Some c).
  { simpl. rewrite Hi1. apply lookup_insert_eq. }
  assert (Hs2 : store_available env2 (with_clock t (snd first)) = true).
  { unfold store_available; simpl. rewrite Hini1. by destruct Hdb1 as [h ->]. }
  assert (Hv : still_valid (clock (with_clock t (snd first))) c = true).
  { apply still_valid_true. simpl. rewrite Hc1 in Httl. exact Httl. }
  destruct (cacheImage_hit env2 u mid2 _ c Hs2 Ht2 Hg2 Hc Hv)
    as (Hr2 & Hf2 & Hi2 & Ho2 & Hn2).
  fold second in Hr2, Hf2, Hi2, Ho2, Hn2. simpl in Hr2, Hf2, Ho2.
  split; [exact Hf1|]. split; [exact Hf2|].
  exists (object_url_of (next_url w)), (object_url_of (next_url (snd first))).
  repeat split; try assumption.
  - rewrite Hn1. intros E. apply object_url_of_inj in E. lia.
  - rewrite Hi1, lookup_insert_eq, Hc1. reflexivity.
  - rewrite Ho2. apply lookup_insert_eq.
Qed.

(** The scenario of the JPEG: first call at time 1000, second call one
    hour after the insertion. *)
Lemma cacheImage_fetches_once_then_hits_witness :
  let first := cacheImage env_ok photo (Some "msg-1") (fresh_world 1000) in
  let second :=
    cacheImage env_ok photo None (with_clock (1005 + one_hour) (snd first)) in
  fetches (snd first) = photo :: fetches (fresh_world 1000)
  /\ fetches (snd second) = fetches (snd first)
  /\ exists r1 r2,
       fst first = Resolved r1 /\ fst second = Resolved r2 /\ r1 <> r2
       /\ images (snd first) !! photo =
            Some (mkCachedImage photo jpeg (clock (snd first)) (Some "msg-1"))
       /\ object_urls (snd second) !! r2 = Some jpeg.
Proof.
  apply (cacheImage_fetches_once_then_hits env_ok env_ok photo (Some "msg-1") None
           (fresh_world 1000) 200 jpeg (1005 + one_hour));
    by vm_compute.
Defined.

(** ** Expiry *)

Lemma urlToBase64_miss_stores env u w status body :
  store_available env w = true -> lookup_hits env w u = false ->
  net env u = NetResponseOf status body -> response_ok status = true ->
  tx_ok env = true -> put_ok env = true ->
  let r := urlToBase64 env u w in
  fst r = match read_as_data_url env body with
          | Some s => Resolved s
          | None => Rejected ReaderError
          end
  /\ fetches (snd r) = u :: fetches w
  /\ images (snd r) =
       <[u := mkCachedImage u body (clock w + net_delay env) None]>
         (images_after_lookup env w u)
  /\ clock (snd r) = clock w + net_delay env.
Proof.
  intros Hs Hl Hn Hr Ht Hp.
  run_method w; simplify_eq; auto 10.
Qed.

(** Neither lookup returns an expired record, whatever the collaborators
    do. *)
Lemma lookup_expired env u w c :
  images w !! u = Some c -> still_valid (clock w) c = false ->
  fst (getCachedImage env u w) = Resolved None
  /\ fst (getCachedImageBlob env u w) = Resolved None.
Proof.
  intros Hc Hv. run_method w; simplify_eq; auto.
Qed.

Lemma lookup_expired_deletes env u w c :
  images w !! u = Some c -> still_valid (clock w) c = false ->
  store_available env w = true ->
  tx_ok env = true -> get_ok env = true -> del_ok env = true ->
  images (snd (getCachedImage env u w)) = delete u (images w)
  /\ images (snd (getCachedImageBlob env u w)) = delete u (images w).
Proof.
  intros Hc Hv Hs Ht Hg Hd. run_method w; simplify_eq; auto.
Qed.

(** C3. A record is expired exactly when now - timestamp >= CACHE_EXPIRY
    (seven days).  For a URL whose record is expired: no lookup returns
    it, whatever the collaborators do; with the store answering, each
    lookup deletes it; and cacheImage and urlToBase64 fetch the URL again
    and store a record whose timestamp is the time of the new insertion. *)
Theorem expired_entry_is_dropped_and_refetched
    (env : Env) (u : string) (mid : option string) (w : World)
    (c : CachedImage) (status : Z) (body : Blob) :
  images w !! u = Some c ->
  CACHE_EXPIRY <= clock w - timestamp c ->
  store_available env w = true ->
  tx_ok env = true -> get_ok env = true -> del_ok env = true ->
  put_ok env = true ->
  net env u = NetResponseOf status body -> response_ok status = true ->
  (forall now c', still_valid now c' = false
                  <-> 7 * 24 * 60 * 60 * 1000 <= now - timestamp c')
  /\ (forall env', fst (getCachedImage env' u w) = Resolved None
                   /\ fst (getCachedImageBlob env' u w) = Resolved None)
  /\ images (snd (getCachedImage env u w)) = delete u (images w)
  /\ images (snd (getCachedImageBlob env u w)) = delete u (images w)
  /\ (let r := cacheImage env u mid w in
      fetches (snd r) = u :: fetches w
      /\ images (snd r) !! u = Some (mkCachedImage u body (clock (snd r)) mid))
  /\ (let r := urlToBase64 env u w in
      fetches (snd r) = u :: fetches w
      /\ images (snd r) !! u = Some (mkCachedImage u body (clock (snd r)) None)).
Proof.
  intros Hc Hexp Hs Ht Hg Hd Hp Hn Hr.
  apply still_valid_false in Hexp.
  assert (Hmiss : lookup_hits env w u = false).
  { unfold lookup_hits. rewrite Hc, Hexp. apply andb_false_r. }
  split; [intros; apply still_valid_false|].
  split; [intros; eapply lookup_expired; eauto|].
  destruct (lookup_expired_deletes env u w c) as [Hd1 Hd2]; try assumption.
  split; [exact Hd1|]. split; [exact Hd2|].
  split.
  - destruct (cacheImage_miss_stores env u mid w status body)
      as (_ & Hf & Hi & Hcl & _); try assumption.
    simpl. split; [exact Hf|]. rewrite Hi, Hcl. apply lookup_insert_eq.
  - destruct (urlToBase64_miss_stores env u w status body)
      as (_ & Hf & Hi & Hcl); try assumption.
    simpl. split; [exact Hf|]. rewrite Hi, Hcl. apply lookup_insert_eq.
Qed.

(** The record stored eight days ago. *)
Lemma expired_entry_is_dropped_and_refetched_witness :
  (forall now c', still_valid now c' = false
                  <-> 7 * 24 * 60 * 60 * 1000 <= now - timestamp c')
  /\ (forall env', fst (getCachedImage env' photo stale_world) = Resolved None
                   /\ fst (getCachedImageBlob env' photo stale_world) = Resolved None)
  /\ images (snd (getCachedImage env_ok photo stale_world))
     = delete photo (images stale_world)
  /\ images (snd (getCachedImageBlob env_ok photo stale_world))
     = delete photo (images stale_world)
  /\ (let r := cacheImage env_ok photo None stale_world in
      fetches (snd r) = photo :: fetches stale_world
      /\ images (snd r) !! photo
         = Some (mkCachedImage photo jpeg (clock (snd r)) None))
  /\ (let r := urlToBase64 env_ok photo stale_world in
      fetches (snd r) = photo :: fetches stale_world
      /\ images (snd r) !! photo
         = Some (mkCachedImage photo jpeg (clock (snd r)) None)).
Proof.
  apply (expired_entry_is_dropped_and_refetched env_ok photo None stale_world
           stale_entry 200 jpeg);
    by vm_compute.
Defined.

(** ** Failures of the fetch, of the put and of the store *)

Lemma images_after_lookup_subseteq env w u : images_after_lookup env w u ⊆ images w.
Proof.
  unfold images_after_lookup.
  destruct (lazily_deleted env w u); [apply delete_subseteq | done].
Qed.

(** C4, as the code has it. When urlToBase64 reaches the fetch (store
    available, lookup without content) and the fetch fails (rejection or
    a status outside 200..299), the promise rejects with the error of the
    fetch and no record is written: the store afterwards is the store
    before, less the expired record of that URL when the lookup deleted
    one. *)
Theorem urlToBase64_fetch_failure_propagates (env : Env) (u : string) (w : World) :
  store_available env w = true -> lookup_hits env w u = false ->
  fetch_failed env u = true ->
  let r := urlToBase64 env u w in
  fst r = Rejected (fetch_error env u)
  /\ fetches (snd r) = u :: fetches w
  /\ images (snd r) =
       (if lazily_deleted env w u then delete u (images w) else images w)
  /\ images (snd r) ⊆ images w.
Proof.
  intros Hs Hl Hf.
  assert (E : let r := urlToBase64 env u w in
              fst r = Rejected (fetch_error env u)
              /\ fetches (snd r) = u :: fetches w
              /\ images (snd r) = images_after_lookup env w u).
  { run_method w; simplify_eq; auto. }
  destruct E as (E1 & E2 & E3). cbv zeta.
  split; [exact E1|]. split; [exact E2|]. split; [exact E3|].
  rewrite E3. apply images_after_lookup_subseteq.
Qed.

Lemma urlToBase64_fetch_failure_propagates_witness :
  let r := urlToBase64 env_500 photo stale_world in
  fst r = Rejected (fetch_error env_500 photo)
  /\ fetches (snd r) = photo :: fetches stale_world
  /\ images (snd r) =
       (if lazily_deleted env_500 stale_world photo
        then delete photo (images stale_world)
        else images stale_world)
  /\ images (snd r) ⊆ images stale_world.
Proof.
  apply (urlToBase64_fetch_failure_propagates env_500 photo stale_world);
    by vm_compute.
Defined.

(** C4, as stated, fails: with an expired record of the URL in the store
    and a 500 response, the failed call changes the store (the lookup
    has deleted the record). *)
Lemma urlToBase64_failed_fetch_changes_store :
  let r := urlToBase64 env_500 photo stale_world in
  fetch_failed env_500 photo = true
  /\ fst r = Rejected (FetchStatusError 500)
  /\ images stale_world !! photo = Some stale_entry
  /\ images (snd r) !! photo = None.
Proof. by vm_compute. Qed.

(** C5, as the code has it. When the fetch succeeds and the put does not
    write the record, nothing is persisted, and what the caller gets
    depends on how the put failed.  When the put request fails
    (onerror), cacheImage resolves with the original URL and mints no
    object URL, and urlToBase64 rejects with the error of the put.  When
    the request succeeds and its transaction aborts afterwards (as for a
    quota error at commit), the fetched content is still returned:
    cacheImage resolves with a new object URL registered for it and
    urlToBase64 settles with what the FileReader makes of it. *)
Theorem put_failure_loses_content
    (env : Env) (u : string) (mid : option string) (w : World)
    (status : Z) (body : Blob) :
  store_available env w = true -> lookup_hits env w u = false ->
  net env u = NetResponseOf status body -> response_ok status = true ->
  tx_ok env = true -> put_ok env = false ->
  let r1 := cacheImage env u mid w in
  let r2 := urlToBase64 env u w in
  fetches (snd r1) = u :: fetches w
  /\ images (snd r1) ⊆ images w
  /\ fetches (snd r2) = u :: fetches w
  /\ images (snd r2) ⊆ images w
  /\ match put_outcome env with
     | PutCommitAbort =>
         fst r1 = Resolved (object_url_of (next_url w))
         /\ object_urls (snd r1) !! object_url_of (next_url w) = Some body
         /\ fst r2 = match read_as_data_url env body with
                     | Some s => Resolved s
                     | None => Rejected ReaderError
                     end
     | _ =>
         fst r1 = Resolved u
         /\ object_urls (snd r1) = object_urls w
         /\ fst r2 = Rejected PutError
     end.
Proof.
  intros Hs Hl Hn Hr Ht Hp.
  assert (E : let r1 := cacheImage env u mid w in
              let r2 := urlToBase64 env u w in
              fetches (snd r1) = u :: fetches w
              /\ images (snd r1) = images_after_lookup env w u
              /\ fetches (snd r2) = u :: fetches w
              /\ images (snd r2) = images_after_lookup env w u).
  { repeat split; run_method w; simplify_eq; auto. }
  destruct E as (E1 & E2 & E3 & E4). cbv zeta.
  rewrite E2, E4. pose proof (images_after_lookup_subseteq env w u).
  repeat (split; [assumption|]).
  clear E1 E2 E3 E4 H.
  destruct (put_outcome env) eqn:Ho;
    repeat split; run_method w; simplify_eq; simpl;
    rewrite ?lookup_insert_eq; auto.
Qed.

(** The put request succeeds and the transaction aborts. *)
Lemma put_failure_loses_content_witness :
  let r1 := cacheImage env_commit_abort photo None (fresh_world 1000) in
  let r2 := urlToBase64 env_commit_abort photo (fresh_world 1000) in
  fetches (snd r1) = photo :: fetches (fresh_world 1000)
  /\ images (snd r1) ⊆ images (fresh_world 1000)
  /\ fetches (snd r2) = photo :: fetches (fresh_world 1000)
  /\ images (snd r2) ⊆ images (fresh_world 1000)
  /\ match put_outcome env_commit_abort with
     | PutCommitAbort =>
         fst r1 = Resolved (object_url_of (next_url (fresh_world 1000)))
         /\ object_urls (snd r1) !! object_url_of (next_url (fresh_world 1000))
            = Some jpeg
         /\ fst r2 = match read_as_data_url env_commit_abort jpeg with
                     | Some s => Resolved s
                     | None => Rejected ReaderError
                     end
     | _ =>
         fst r1 = Resolved photo
         /\ object_urls (snd r1) = object_urls (fresh_world 1000)
         /\ fst r2 = Rejected PutError
     end.
Proof.
  apply (put_failure_loses_content env_commit_abort photo None (fresh_world 1000)
           200 jpeg);
    by vm_compute.
Defined.

(** The two ways on the JPEG: a transaction that aborts after the
    request succeeded returns the content and stores nothing; a request
    that fails returns the URL. *)
Example put_failure_two_ways :
  fst (cacheImage env_commit_abort photo None (fresh_world 1000)) = Resolved "blob:0"
  /\ images (snd (cacheImage env_commit_abort photo None (fresh_world 1000)))
       !! photo = None
  /\ fst (urlToBase64 env_commit_abort photo (fresh_world 1000))
     = Resolved "data:image/jpeg;base64,/9j/4A=="
  /\ fst (cacheImage env_quota photo None (fresh_world 1000)) = Resolved photo.
Proof. repeat split; vm_compute; reflexivity. Qed.

(** C5, as stated, fails: the fetch answers 200 with the JPEG and the put
    request fails; cacheImage resolves with the URL it was given, no
    object URL exists afterwards, and urlToBase64 rejects. *)
Lemma put_failure_returns_no_content :
  let r1 := cacheImage env_quota photo None (fresh_world 1000) in
  let r2 := urlToBase64 env_quota photo (fresh_world 1000) in
  net env_quota photo = NetResponseOf 200 jpeg
  /\ put_ok env_quota = false
  /\ fst r1 = Resolved photo
  /\ object_urls (snd r1) = ∅
  /\ fst r2 = Rejected PutError.
Proof. by vm_compute. Qed.

(** C6, as the code has it. When the store is unavailable, cacheImage
    resolves with the URL it was given and fetches nothing; urlToBase64
    rejects (with the error of the open, or 'Database not initialized')
    and fetches nothing either. *)
Theorem store_unavailable_degrades
    (env : Env) (u : string) (mid : option string) (w : World) :
  store_available env w = false ->
  let r1 := cacheImage env u mid w in
  let r2 := urlToBase64 env u w in
  fst r1 = Resolved u
  /\ fetches (snd r1) = fetches w
  /\ images (snd r1) = images w
  /\ fst r2 = Rejected (if isInitialized w then DatabaseNotInitialized
                        else OpenError)
  /\ fetches (snd r2) = fetches w
  /\ images (snd r2) = images w.
Proof.
  intros Hs. run_method w; simplify_eq; auto 10.
Qed.

Lemma store_unavailable_degrades_witness :
  let r1 := cacheImage env_no_store photo None (fresh_world 1000) in
  let r2 := urlToBase64 env_no_store photo (fresh_world 1000) in
  fst r1 = Resolved photo
  /\ fetches (snd r1) = fetches (fresh_world 1000)
  /\ images (snd r1) = images (fresh_world 1000)
  /\ fst r2 = Rejected (if isInitialized (fresh_world 1000)
                        then DatabaseNotInitialized else OpenError)
  /\ fetches (snd r2) = fetches (fresh_world 1000)
  /\ images (snd r2) = images (fresh_world 1000).
Proof.
  apply (store_unavailable_degrades env_no_store photo None (fresh_world 1000)).
  reflexivity.
Defined.

(** C6, as stated, fails: the open fails and the network would answer
    200; urlToBase64 rejects with the error of the open and has fetched
    nothing. *)
Lemma store_unavailable_urlToBase64_rejects :
  let r := urlToBase64 env_no_store photo (fresh_world 1000) in
  net env_no_store photo = NetResponseOf 200 jpeg
  /\ store_available env_no_store (fresh_world 1000) = false
  /\ fst r = Rejected OpenError
  /\ fetches (snd r) = [].
Proof. by vm_compute. Qed.

(** ** The passthrough of the hook *)

(** C7. For a URL that starts with blob: or data:, useCachedImage sets
    cachedUrl to that URL and leaves the world as it was: no open
    request, no transaction, no fetch. *)
Theorem useCachedImage_passthrough
    (env : Env) (u : string) (mid : option string) (st : HookState) (w : World) :
  String.prefix "blob:" u = true \/ String.prefix "data:" u = true ->
  let r := useCachedImage env (Some u) mid st w in
  cachedUrl (fst r) = Some u
  /\ snd r = w
  /\ opens (snd r) = opens w
  /\ txs (snd r) = txs w
  /\ fetches (snd r) = fetches w.
Proof.
  intros H.
  assert (E : useCachedImage env (Some u) mid st w
              = (mkHookState (Some u) (isLoading st), w)).
  { unfold useCachedImage.
    assert (Ht : truthy (Some u) = Some u).
    { destruct H as [H|H]; eapply prefix_nonempty; exact H. }
    rewrite Ht. destruct H as [-> | ->]; [reflexivity|].
    by rewrite orb_true_r. }
  cbv zeta. rewrite E. by repeat split.
Qed.

Lemma useCachedImage_passthrough_witness :
  let r := useCachedImage env_ok (Some "data:image/png;base64,iVBORw0KGgo=") None
             (mkHookState None false) (fresh_world 1000) in
  cachedUrl (fst r) = Some "data:image/png;base64,iVBORw0KGgo="
  /\ snd r = fresh_world 1000
  /\ opens (snd r) = opens (fresh_world 1000)
  /\ txs (snd r) = txs (fresh_world 1000)
  /\ fetches (snd r) = fetches (fresh_world 1000).
Proof.
  apply (useCachedImage_passthrough env_ok "data:image/png;base64,iVBORw0KGgo=").
  right. reflexivity.
Defined.

(** The test is the hook's: cacheImage itself, given an object URL,
    opens the store and fetches. *)
Example cacheImage_has_no_prefix_test :
  fetches (snd (cacheImage env_ok "blob:0" None (fresh_world 1000))) = ["blob:0"].
Proof. reflexivity. Qed.

(** ** clearExpiredCache *)

Lemma cursor_delete_all_lookup keys (m : gmap string CachedImage) k :
  cursor_delete_all keys m !! k = if decide (k ∈ keys) then None else m !! k.
Proof.
  revert m. induction keys as [|k' rest IH]; intros m; simpl.
  - destruct (decide (k ∈ [])) as [Hin|_]; [|done].
    by apply elem_of_nil in Hin.
  - rewrite IH.
    destruct (decide (k ∈ rest)) as [Hin|Hnin], (decide (k ∈ k' :: rest)) as [Hin'|Hnin'];
      try done.
    + exfalso. apply Hnin'. by right.
    + apply elem_of_cons in Hin' as [->|?]; [apply lookup_delete_eq | done].
    + apply lookup_delete_ne. intros ->. apply Hnin'. by left.
Qed.

Lemma elem_of_index_upper_bound cutoff (m : gmap string CachedImage) k :
  k ∈ index_upper_bound cutoff m
  <-> exists c, m !! k = Some c /\ timestamp c <= cutoff.
Proof.
  unfold index_upper_bound. rewrite list_elem_of_fmap. split.
  - intros [[k' c] [-> Hin]]. apply elem_of_map_to_list in Hin.
    apply map_lookup_filter_Some in Hin as [Hm Hc]. eauto.
  - intros [c [Hm Hc]]. exists (k, c). split; [done|].
    apply elem_of_map_to_list. by apply map_lookup_filter_Some.
Qed.

(** What the cursor loop leaves, key by key. *)
Lemma sweep_lookup now (m : gmap string CachedImage) k :
  cursor_delete_all (index_upper_bound (now - CACHE_EXPIRY) m) m !! k
  = match m !! k with
    | Some c => if expired_at now c then None else Some c
    | None => None
    end.
Proof.
  rewrite cursor_delete_all_lookup. unfold expired_at.
  destruct (decide (k ∈ index_upper_bound (now - CACHE_EXPIRY) m)) as [Hin|Hnin].
  - apply elem_of_index_upper_bound in Hin as [c [-> Hc]].
    assert (E : (CACHE_EXPIRY <=? now - timestamp c) = true) by (apply Z.leb_le; lia).
    by rewrite E.
  - destruct (m !! k) as [c|] eqn:Hm; [|done].
    destruct (CACHE_EXPIRY <=? now - timestamp c) eqn:Hc; [|done].
    exfalso. apply Hnin, elem_of_index_upper_bound.
    exists c. split; [done | apply Z.leb_le in Hc; lia].
Qed.

(** Sweeping what a sweep at the same time has left deletes nothing. *)
Lemma sweep_twice now (m : gmap string CachedImage) :
  let m1 := cursor_delete_all (index_upper_bound (now - CACHE_EXPIRY) m) m in
  cursor_delete_all (index_upper_bound (now - CACHE_EXPIRY) m1) m1 = m1.
Proof.
  intros m1. apply map_eq. intros k. rewrite sweep_lookup.
  destruct (m1 !! k) as [c|] eqn:Hm1; [|done].
  destruct (expired_at now c) eqn:He; [|done].
  exfalso. unfold m1 in Hm1. rewrite sweep_lookup in Hm1.
  destruct (m !! k) as [c0|]; [|done].
  destruct (expired_at now c0) eqn:He0; [done|]. congruence.
Qed.

Lemma clearExpiredCache_images env w :
  store_available env w = true -> tx_ok env = true -> del_ok env = true ->
  images (snd (clearExpiredCache env w))
  = cursor_delete_all (index_upper_bound (clock w - CACHE_EXPIRY) (images w)) (images w).
Proof.
  intros Hs Ht Hd. run_method w; simplify_eq; auto.
Qed.

(** Whatever the collaborators do, the sweep leaves the store as it was
    or runs the cursor loop on it, and does not move the clock. *)
Lemma clearExpiredCache_images_any env w :
  let w' := snd (clearExpiredCache env w) in
  clock w' = clock w
  /\ (images w' = images w
      \/ images w'
         = cursor_delete_all (index_upper_bound (clock w - CACHE_EXPIRY) (images w))
                             (images w)).
Proof.
  run_method w; simplify_eq; auto.
Qed.

(** C8. clearExpiredCache deletes exactly the records whose age at the
    time of the sweep is at least CACHE_EXPIRY and leaves every other
    record as it was; a second sweep at the same time, whatever the
    collaborators then do, leaves the store of the first. *)
Theorem clearExpiredCache_sweeps_exactly_expired (env env2 : Env) (w : World) :
  store_available env w = true -> tx_ok env = true -> del_ok env = true ->
  let w1 := snd (clearExpiredCache env w) in
  let w2 := snd (clearExpiredCache env2 w1) in
  (forall k, images w1 !! k =
             match images w !! k with
             | Some c => if expired_at (clock w) c then None else Some c
             | None => None
             end)
  /\ clock w1 = clock w
  /\ images w2 = images w1.
Proof.
  intros Hs Ht Hd w1 w2.
  pose proof (clearExpiredCache_images env w Hs Ht Hd) as Hi1. fold w1 in Hi1.
  destruct (clearExpiredCache_images_any env w) as [Hc1 _]. fold w1 in Hc1.
  split; [intros k; rewrite Hi1; apply sweep_lookup|].
  split; [exact Hc1|].
  destruct (clearExpiredCache_images_any env2 w1) as [_ [Hi2|Hi2]];
    fold w2 in Hi2; [exact Hi2|].
  rewrite Hi2, Hc1, Hi1. apply sweep_twice.
Qed.

(** A store with one record eight days old and one an hour old. *)
Lemma clearExpiredCache_sweeps_exactly_expired_witness :
  let w1 := snd (clearExpiredCache env_ok mixed_world) in
  let w2 := snd (clearExpiredCache env_quota w1) in
  (forall k, images w1 !! k =
             match images mixed_world !! k with
             | Some c => if expired_at (clock mixed_world) c then None else Some c
             | None => None
             end)
  /\ clock w1 = clock mixed_world
  /\ images w2 = images w1.
Proof.
  apply (clearExpiredCache_sweeps_exactly_expired env_ok env_quota mixed_world);
    reflexivity.
Defined.

Example clearExpiredCache_mixed_world :
  let m := images (snd (clearExpiredCache env_ok mixed_world)) in
  m !! photo = None
  /\ m !! "https://example.com/b.png"
     = Some (mkCachedImage "https://example.com/b.png" jpeg
                           (eight_days - one_hour) None).
Proof.
  cbv zeta. rewrite clearExpiredCache_images by reflexivity.
  rewrite !sweep_lookup. split; reflexivity.
Qed.

(** ** init: memoised, not shared in flight *)

(** C9, as the code has it. The first init of a manager issues one open
    request; once that open has succeeded the handle is memoised: every
    later init, sequential or interleaved, resolves at once, issues no
    request and leaves the world as it is. *)
Theorem init_memoized_after_success (env env' : Env) (w : World) (queue : list nat) :
  isInitialized w = false -> open_ok env = true ->
  let w1 := snd (init env w) in
  fst (init env w) = Resolved tt
  /\ opens w1 = S (opens w)
  /\ db w1 = Some (opens w)
  /\ isInitialized w1 = true
  /\ init_steps [InitCalled; OpenSettled true] (w, []) = (w1, [])
  /\ init env' w1 = (Resolved tt, w1)
  /\ init_step InitCalled (w1, queue) = (w1, queue).
Proof.
  intros Hi Ho. destruct w; simpl in *; subst.
  unfold init_steps, init_step, init; simpl. rewrite Ho. simpl.
  by repeat split.
Qed.

Lemma init_memoized_after_success_witness :
  let w1 := snd (init env_ok (fresh_world 1000)) in
  fst (init env_ok (fresh_world 1000)) = Resolved tt
  /\ opens w1 = S (opens (fresh_world 1000))
  /\ db w1 = Some (opens (fresh_world 1000))
  /\ isInitialized w1 = true
  /\ init_steps [InitCalled; OpenSettled true] (fresh_world 1000, []) = (w1, [])
  /\ init env_no_store w1 = (Resolved tt, w1)
  /\ init_step InitCalled (w1, [7%nat]) = (w1, [7%nat]).
Proof.
  apply (init_memoized_after_success env_ok env_no_store (fresh_world 1000) [7%nat]);
    reflexivity.
Defined.

(** C9, as stated, fails: two calls of init before the first open
    settles issue two open requests, both in flight; when both succeed
    the handle of the second replaces the handle of the first. *)
Lemma concurrent_first_use_opens_twice :
  let s := init_steps [InitCalled; InitCalled] (fresh_world 1000, []) in
  let s' := init_steps [OpenSettled true; OpenSettled true] s in
  opens (fst s) = 2%nat
  /\ snd s = [0%nat; 1%nat]
  /\ db (fst (init_steps [OpenSettled true] s)) = Some 0%nat
  /\ db (fst s') = Some 1%nat.
Proof. by vm_compute. Qed.

(** ** getCacheSize *)

Lemma getCachedImage_content_iff env w k :
  store_available env w = true -> tx_ok env = true -> get_ok env = true ->
  (exists r, fst (getCachedImage env k w) = Resolved (Some r))
  <-> is_Some (servable w !! k).
Proof.
  intros Hs Ht Hg. unfold servable.
  assert (E : fst (getCachedImage env k w) =
              Resolved (match images w !! k with
                        | Some c => if still_valid (clock w) c
                                    then Some (object_url_of (next_url w)) else None
                        | None => None
                        end)).
  { run_method w; simplify_eq; auto. }
  rewrite E. split.
  - intros [r Hr]. destruct (images w !! k) as [c|] eqn:Hc; [|done].
    destruct (still_valid (clock w) c) eqn:Hv; [|done].
    exists c. by apply map_lookup_filter_Some.
  - intros [c Hc]. apply map_lookup_filter_Some in Hc as [Hc Hv]. simpl in Hv.
    rewrite Hc, Hv. eauto.
Qed.

(** C10. getCacheSize resolves with the number of records in the store,
    expired or not, and changes nothing; the keys for which a lookup
    returns content are those of the records still valid; so with an
    expired record in the store the count exceeds the number of keys a
    lookup would serve. *)
Theorem getCacheSize_counts_expired_entries
    (env : Env) (w : World) (k : string) (c : CachedImage) :
  store_available env w = true ->
  tx_ok env = true -> get_ok env = true -> count_ok env = true ->
  images w !! k = Some c -> CACHE_EXPIRY <= clock w - timestamp c ->
  let r := getCacheSize env w in
  fst r = Resolved (size (images w))
  /\ images (snd r) = images w
  /\ (forall k', (exists o, fst (getCachedImage env k' w) = Resolved (Some o))
                <-> is_Some (servable w !! k'))
  /\ (size (servable w) < size (images w))%nat.
Proof.
  intros Hs Ht Hg Hn Hc Hexp.
  assert (E : let r := getCacheSize env w in
              fst r = Resolved (size (images w)) /\ images (snd r) = images w).
  { run_method w; simplify_eq; auto. }
  destruct E as [E1 E2]. cbv zeta.
  split; [exact E1|]. split; [exact E2|].
  split; [intros k'; by apply getCachedImage_content_iff|].
  apply map_subset_size. apply map_subset_alt. split.
  - apply map_filter_subseteq.
  - exists k. split; [|by eauto].
    apply map_lookup_filter_None. right. intros c' Hc'. simplify_eq. simpl.
    apply still_valid_false in Hexp. by rewrite Hexp.
Qed.

Lemma getCacheSize_counts_expired_entries_witness :
  let r := getCacheSize env_ok mixed_world in
  fst r = Resolved (size (images mixed_world))
  /\ images (snd r) = images mixed_world
  /\ (forall k', (exists o, fst (getCachedImage env_ok k' mixed_world)
                           = Resolved (Some o))
                <-> is_Some (servable mixed_world !! k'))
  /\ (size (servable mixed_world) < size (images mixed_world))%nat.
Proof.
  apply (getCacheSize_counts_expired_entries env_ok mixed_world photo stale_entry);
    by vm_compute.
Defined.

Example getCacheSize_mixed_world :
  fst (getCacheSize env_ok mixed_world) = Resolved 2%nat
  /\ fst (getCachedImage env_ok photo mixed_world) = Resolved None
  /\ fst (getCachedImage env_ok "https://example.com/b.png" mixed_world)
     = Resolved (Some "blob:0").
Proof. repeat split; vm_compute; reflexivity. Qed.

(** ** Further properties of the manager *)

(** What cacheImage resolves with, for every environment. *)
Lemma cacheImage_outcome env u mid w :
  fst (cacheImage env u mid w)
  = Resolved (if cacheImage_fails env w u then u else object_url_of (next_url w)).
Proof. run_method w; reflexivity. Qed.

(** The store after removeCachedImage. *)
Lemma removeCachedImage_effect env u w :
  removeCachedImage env u w
  = (Resolved tt, snd (removeCachedImage env u w))
  /\ images (snd (removeCachedImage env u w))
     = (if store_available env w && tx_ok env && del_ok env
        then delete u (images w) else images w)
  /\ fetches (snd (removeCachedImage env u w)) = fetches w
  /\ object_urls (snd (removeCachedImage env u w)) = object_urls w
  /\ clock (snd (removeCachedImage env u w)) = clock w.
Proof. run_method w; simplify_eq; auto 10. Qed.

(** X1. removeCachedImage never rejects, whatever the collaborators do;
    it deletes the record of its URL when the store answers and changes
    nothing otherwise; a URL without a record is no error and leaves the
    store as it was; it never fetches. *)
Theorem removeCachedImage_deletes_or_does_nothing (env : Env) (u : string) (w : World) :
  exists w',
    removeCachedImage env u w = (Resolved tt, w')
    /\ images w' = (if store_available env w && tx_ok env && del_ok env
                    then delete u (images w) else images w)
    /\ (images w !! u = None -> images w' = images w)
    /\ fetches w' = fetches w.
Proof.
  destruct (removeCachedImage_effect env u w) as (E & Hi & Hf & _).
  eexists. split; [exact E|]. split; [exact Hi|]. split; [|exact Hf].
  intros Hu. rewrite Hi. destruct (_ && _); [by apply delete_id | done].
Qed.

Lemma removeCachedImage_ready env u w :
  store_available env w = true ->
  isInitialized (snd (removeCachedImage env u w)) = true
  /\ is_Some (db (snd (removeCachedImage env u w))).
Proof. intros Hs. run_method w; simplify_eq; eauto. Qed.

(** X2. After a removeCachedImage that reached the store, the next
    cacheImage of the same URL fetches it, whatever the collaborators
    then do: there is no stale hit. *)
Theorem remove_then_cacheImage_fetches
    (env1 env2 : Env) (u : string) (mid : option string) (w : World) :
  store_available env1 w = true -> tx_ok env1 = true -> del_ok env1 = true ->
  let w1 := snd (removeCachedImage env1 u w) in
  images w1 !! u = None
  /\ fetches (snd (cacheImage env2 u mid w1)) = u :: fetches w.
Proof.
  intros Hs Ht Hd w1.
  destruct (removeCachedImage_effect env1 u w) as (_ & Hi & Hf & _).
  destruct (removeCachedImage_ready env1 u w Hs) as [Hini [h Hdb]].
  fold w1 in Hi, Hf, Hini, Hdb.
  rewrite Hs, Ht, Hd in Hi. simpl in Hi.
  assert (Hnone : images w1 !! u = None) by (rewrite Hi; apply lookup_delete_eq).
  split; [exact Hnone|].
  rewrite <- Hf. apply cacheImage_miss_fetches_once.
  - unfold store_available. by rewrite Hini, Hdb.
  - unfold lookup_hits. rewrite Hnone. apply andb_false_r.
Qed.

Lemma remove_then_cacheImage_fetches_witness :
  let w1 := snd (removeCachedImage env_ok photo stale_world) in
  images w1 !! photo = None
  /\ fetches (snd (cacheImage env_500 photo None w1)) = photo :: fetches stale_world.
Proof.
  apply (remove_then_cacheImage_fetches env_ok env_500 photo None stale_world);
    reflexivity.
Defined.

(** X3. No method touches the record of another URL: whatever the
    collaborators do, cacheImage, urlToBase64, the two lookups and
    removeCachedImage of [u] leave the record of every [k <> u] as it
    was. *)
Theorem methods_touch_only_their_key
    (env : Env) (u k : string) (mid : option string) (w : World) :
  k <> u ->
  images (snd (cacheImage env u mid w)) !! k = images w !! k
  /\ images (snd (urlToBase64 env u w)) !! k = images w !! k
  /\ images (snd (getCachedImage env u w)) !! k = images w !! k
  /\ images (snd (getCachedImageBlob env u w)) !! k = images w !! k
  /\ images (snd (removeCachedImage env u w)) !! k = images w !! k.
Proof.
  intros Hk. assert (Hk' : u <> k) by done.
  repeat split; run_method w; simpl;
    rewrite ?lookup_insert_ne, ?lookup_delete_ne by done; reflexivity.
Qed.

Lemma methods_touch_only_their_key_witness :
  images (snd (cacheImage env_ok photo None mixed_world))
    !! "https://example.com/b.png" = images mixed_world !! "https://example.com/b.png"
  /\ images (snd (urlToBase64 env_ok photo mixed_world))
    !! "https://example.com/b.png" = images mixed_world !! "https://example.com/b.png"
  /\ images (snd (getCachedImage env_ok photo mixed_world))
    !! "https://example.com/b.png" = images mixed_world !! "https://example.com/b.png"
  /\ images (snd (getCachedImageBlob env_ok photo mixed_world))
    !! "https://example.com/b.png" = images mixed_world !! "https://example.com/b.png"
  /\ images (snd (removeCachedImage env_ok photo mixed_world))
    !! "https://example.com/b.png" = images mixed_world !! "https://example.com/b.png".
Proof.
  apply (methods_touch_only_their_key env_ok photo "https://example.com/b.png"
           None mixed_world).
  discriminate.
Defined.

(** ** An invariant along a session *)

Lemma do_call_handle_consistent env c w :
  handle_consistent w -> handle_consistent (do_call env c w).
Proof.
  unfold handle_consistent. intros Hw.
  destruct c; unfold do_call; run_method w; intros; eauto.
Qed.

Lemma do_calls_handle_consistent session w :
  handle_consistent w -> handle_consistent (do_calls session w).
Proof.
  revert w. induction session as [|[env c] rest IH]; intros w Hw; [exact Hw|].
  simpl. apply IH. by apply do_call_handle_consistent.
Qed.

(** X5. From a newly constructed manager, after any session of calls,
    the handle is present whenever isInitialized is set; so the guard
    `if (!this.db) throw new Error('Database not initialized')` never
    fires: neither urlToBase64 rejects with that error, nor does
    cacheImage fall back to the URL because of it (with the open
    succeeding, the store is available). *)
Theorem database_not_initialized_is_unreachable
    (session : list (Env * Call)) (t : Z) (env : Env) (u : string) :
  let w := do_calls session (fresh_world t) in
  handle_consistent w
  /\ fst (urlToBase64 env u w) <> Rejected DatabaseNotInitialized
  /\ store_available env w = isInitialized w || open_ok env.
Proof.
  intros w.
  assert (Hw : handle_consistent w).
  { apply do_calls_handle_consistent. intros H. discriminate H. }
  split; [exact Hw|]. clearbody w. unfold handle_consistent in Hw.
  split.
  - run_method w; try discriminate.
    all: destruct Hw as [? ?]; [reflexivity | discriminate].
  - unfold store_available. destruct (isInitialized w); [|reflexivity].
    destruct Hw as [h ->]; reflexivity.
Qed.

(** X6. No method opens the store more than once: whatever the
    collaborators do, each method (the nested calls of init included)
    issues no open request when the manager is initialised, and at most
    one when it is not. *)
Theorem every_method_opens_at_most_once
    (env : Env) (u : string) (mid : option string) (w : World) :
  let at_most_once (w' : World) :=
    opens w' = opens w \/ (isInitialized w = false /\ opens w' = S (opens w)) in
  at_most_once (snd (cacheImage env u mid w))
  /\ at_most_once (snd (urlToBase64 env u w))
  /\ at_most_once (snd (getCachedImage env u w))
  /\ at_most_once (snd (getCachedImageBlob env u w))
  /\ at_most_once (snd (removeCachedImage env u w))
  /\ at_most_once (snd (clearExpiredCache env w))
  /\ at_most_once (snd (getCacheSize env w)).
Proof.
  cbv zeta. repeat split; run_method w; auto.
Qed.

(** ** getCacheSize and clearExpiredCache under failures *)

(** X7. getCacheSize never rejects and has no side effect on the store,
    the fetch log or the object URLs; it resolves with the number of
    records when the store, the transaction and the count request all
    answer, and with 0 otherwise. *)
Theorem getCacheSize_never_fails (env : Env) (w : World) :
  exists w',
    getCacheSize env w
    = (Resolved (if store_available env w && tx_ok env && count_ok env
                 then size (images w) else 0%nat), w')
    /\ images w' = images w
    /\ fetches w' = fetches w
    /\ object_urls w' = object_urls w.
Proof.
  run_method w; eexists; (split; [reflexivity|]); auto.
Qed.

Lemma clearExpiredCache_resolves env w :
  fst (clearExpiredCache env w) = Resolved tt
  /\ fetches (snd (clearExpiredCache env w)) = fetches w.
Proof. run_method w; auto. Qed.

(** X8. clearExpiredCache never rejects and never deletes a record that
    is still valid, whatever the collaborators do: a record younger than
    CACHE_EXPIRY at the time of the sweep is still there afterwards, and
    the sweep adds nothing and fetches nothing. *)
Theorem clearExpiredCache_keeps_valid_records
    (env : Env) (w : World) (k : string) (c : CachedImage) :
  images w !! k = Some c -> clock w - timestamp c < CACHE_EXPIRY ->
  let r := clearExpiredCache env w in
  fst r = Resolved tt
  /\ images (snd r) !! k = Some c
  /\ images (snd r) ⊆ images w
  /\ fetches (snd r) = fetches w.
Proof.
  intros Hk Hv r.
  destruct (clearExpiredCache_resolves env w) as [Hr Hf].
  destruct (clearExpiredCache_images_any env w) as [_ Hi].
  fold r in Hr, Hf, Hi. cbv zeta in Hi.
  split; [exact Hr|].
  assert (He : expired_at (clock w) c = false).
  { unfold expired_at. apply Z.leb_gt. exact Hv. }
  destruct Hi as [Hi|Hi]; rewrite Hi.
  - repeat split; done.
  - split; [by rewrite sweep_lookup, Hk, He|]. split; [|exact Hf].
    apply map_subseteq_spec. intros k' c'. rewrite sweep_lookup.
    destruct (images w !! k') as [c0|]; [|done].
    by destruct (expired_at (clock w) c0).
Qed.

Lemma clearExpiredCache_keeps_valid_records_witness :
  let r := clearExpiredCache env_ok mixed_world in
  fst r = Resolved tt
  /\ images (snd r) !! "https://example.com/b.png"
     = Some (mkCachedImage "https://example.com/b.png" jpeg
                           (eight_days - one_hour) None)
  /\ images (snd r) ⊆ images mixed_world
  /\ fetches (snd r) = fetches mixed_world.
Proof.
  apply (clearExpiredCache_keeps_valid_records env_ok mixed_world
           "https://example.com/b.png"
           (mkCachedImage "https://example.com/b.png" jpeg
                          (eight_days - one_hour) None));
    reflexivity.
Defined.

(** X9. After a sweep that reached the store, every record left is
    still valid, so at that time getCacheSize counts exactly the records
    a lookup would serve. *)
Theorem getCacheSize_after_sweep_counts_servable (env env' : Env) (w : World) :
  store_available env w = true -> tx_ok env = true -> del_ok env = true ->
  tx_ok env' = true -> count_ok env' = true ->
  let w1 := snd (clearExpiredCache env w) in
  servable w1 = images w1
  /\ fst (getCacheSize env' w1) = Resolved (size (servable w1)).
Proof.
  intros Hs Ht Hd Ht' Hc' w1.
  pose proof (clearExpiredCache_images env w Hs Ht Hd) as Hi.
  destruct (clearExpiredCache_images_any env w) as [Hcl _].
  fold w1 in Hi, Hcl. cbv zeta in Hcl.
  assert (Hserv : servable w1 = images w1).
  { unfold servable. apply map_filter_id. intros k c Hk. simpl.
    rewrite Hi, sweep_lookup in Hk. rewrite Hcl.
    destruct (images w !! k) as [c0|]; [|done].
    destruct (expired_at (clock w) c0) eqn:He; [done|]. simplify_eq.
    apply still_valid_true. unfold expired_at in He. by apply Z.leb_gt in He. }
  split; [exact Hserv|]. rewrite Hserv.
  assert (Hs1 : store_available env' w1 = true).
  { unfold w1. clear -Hs. run_method w; simplify_eq; auto. }
  clearbody w1. clear -Hs1 Ht' Hc'.
  run_method w1; simplify_eq; auto.
Qed.

Lemma getCacheSize_after_sweep_counts_servable_witness :
  let w1 := snd (clearExpiredCache env_ok mixed_world) in
  servable w1 = images w1
  /\ fst (getCacheSize env_quota w1) = Resolved (size (servable w1)).
Proof.
  apply (getCacheSize_after_sweep_counts_servable env_ok env_quota mixed_world);
    reflexivity.
Defined.

(** ** Hits *)

Lemma urlToBase64_hit env u w c :
  store_available env w = true -> tx_ok env = true -> get_ok env = true ->
  images w !! u = Some c -> still_valid (clock w) c = true ->
  let r := urlToBase64 env u w in
  fst r = match read_as_data_url env (blob c) with
          | Some s => Resolved s
          | None => Rejected ReaderError
          end
  /\ fetches (snd r) = fetches w
  /\ images (snd r) = images w
  /\ object_urls (snd r) = object_urls w.
Proof.
  intros Hs Ht Hg Hc Hv.
  run_method w; simplify_eq; auto.
Qed.

(** X10. A hit is a pure read of the store: when the record of the URL
    is still valid, cacheImage and urlToBase64 fetch nothing and leave
    the store as it was; in particular the timestamp is not refreshed,
    so a record expires CACHE_EXPIRY after its insertion however often
    it is read.  urlToBase64 then settles with what the FileReader makes
    of the stored blob: its data URL, or its error, which is propagated. *)
Theorem hit_reads_without_refreshing
    (env : Env) (u : string) (mid : option string) (w : World) (c : CachedImage) :
  store_available env w = true -> tx_ok env = true -> get_ok env = true ->
  images w !! u = Some c -> clock w - timestamp c < CACHE_EXPIRY ->
  let r1 := cacheImage env u mid w in
  let r2 := urlToBase64 env u w in
  images (snd r1) = images w
  /\ fetches (snd r1) = fetches w
  /\ images (snd r2) = images w
  /\ fetches (snd r2) = fetches w
  /\ fst r2 = match read_as_data_url env (blob c) with
              | Some s => Resolved s
              | None => Rejected ReaderError
              end.
Proof.
  intros Hs Ht Hg Hc Hv. apply still_valid_true in Hv.
  destruct (cacheImage_hit env u mid w c Hs Ht Hg Hc Hv) as (_ & Hf1 & Hi1 & _).
  destruct (urlToBase64_hit env u w c Hs Ht Hg Hc Hv) as (Hr2 & Hf2 & Hi2 & _).
  cbv zeta. by repeat split.
Qed.

Lemma hit_reads_without_refreshing_witness :
  let u := "https://example.com/b.png" in
  let c := mkCachedImage u jpeg (eight_days - one_hour) None in
  let r1 := cacheImage env_ok u (Some "msg-2") mixed_world in
  let r2 := urlToBase64 env_ok u mixed_world in
  images (snd r1) = images mixed_world
  /\ fetches (snd r1) = fetches mixed_world
  /\ images (snd r2) = images mixed_world
  /\ fetches (snd r2) = fetches mixed_world
  /\ fst r2 = match read_as_data_url env_ok (blob c) with
              | Some s => Resolved s
              | None => Rejected ReaderError
              end.
Proof.
  apply (hit_reads_without_refreshing env_ok "https://example.com/b.png"
           (Some "msg-2") mixed_world
           (mkCachedImage "https://example.com/b.png" jpeg
                          (eight_days - one_hour) None));
    reflexivity.
Defined.

(** X11. cacheImage and urlToBase64 share one store: what either of them
    has fetched and stored, the other serves within CACHE_EXPIRY without
    fetching again: urlToBase64 converts the blob that cacheImage
    stored, and cacheImage mints an object URL for the blob that
    urlToBase64 stored. *)
Theorem cacheImage_and_urlToBase64_share_the_store
    (env1 env2 : Env) (u : string) (mid : option string) (w : World)
    (status : Z) (body : Blob) (t : Z) :
  images w !! u = None ->
  store_available env1 w = true -> tx_ok env1 = true -> put_ok env1 = true ->
  net env1 u = NetResponseOf status body -> response_ok status = true ->
  tx_ok env2 = true -> get_ok env2 = true ->
  t - (clock w + net_delay env1) < CACHE_EXPIRY ->
  let a := with_clock t (snd (cacheImage env1 u mid w)) in
  let b := with_clock t (snd (urlToBase64 env1 u w)) in
  fetches (snd (urlToBase64 env2 u a)) = u :: fetches w
  /\ fst (urlToBase64 env2 u a)
     = match read_as_data_url env2 body with
       | Some s => Resolved s
       | None => Rejected ReaderError
       end
  /\ fetches (snd (cacheImage env2 u mid b)) = u :: fetches w
  /\ (exists o, fst (cacheImage env2 u mid b) = Resolved o
               /\ object_urls (snd (cacheImage env2 u mid b)) !! o = Some body).
Proof.
  intros Hnone Hs Ht Hp Hn Hr Ht2 Hg2 Httl a b.
  assert (Hmiss : lookup_hits env1 w u = false).
  { unfold lookup_hits. rewrite Hnone. apply andb_false_r. }
  destruct (cacheImage_miss_stores env1 u mid w status body Hs Hmiss Hn Hr Ht Hp)
    as (_ & Hfa & Hia & _ & _ & _ & Hinia & [ha Hdba]).
  destruct (urlToBase64_miss_stores env1 u w status body Hs Hmiss Hn Hr Ht Hp)
    as (_ & Hfb & Hib & _).
  assert (Hreadyb : store_available env2 b = true).
  { unfold b. clear -Hs. run_method w; simplify_eq; auto. }
  assert (Hreadya : store_available env2 a = true).
  { unfold store_available, a; simpl. by rewrite Hinia, Hdba. }
  set (ca := mkCachedImage u body (clock w + net_delay env1) mid) in *.
  set (cb := mkCachedImage u body (clock w + net_delay env1) None) in *.
  assert (Hca : images a !! u = Some ca) by (simpl; rewrite Hia; apply lookup_insert_eq).
  assert (Hcb : images b !! u = Some cb) by (simpl; rewrite Hib; apply lookup_insert_eq).
  assert (Hva : still_valid (clock a) ca = true) by (by apply still_valid_true).
  assert (Hvb : still_valid (clock b) cb = true) by (by apply still_valid_true).
  destruct (urlToBase64_hit env2 u a ca Hreadya Ht2 Hg2 Hca Hva) as (Hr2 & Hf2 & _).
  destruct (cacheImage_hit env2 u mid b cb Hreadyb Ht2 Hg2 Hcb Hvb)
    as (Hr3 & Hf3 & _ & Ho3 & _).
  split; [by rewrite Hf2|]. split; [exact Hr2|]. split; [by rewrite Hf3|].
  eexists. split; [exact Hr3|]. rewrite Ho3. apply lookup_insert_eq.
Qed.

Lemma cacheImage_and_urlToBase64_share_the_store_witness :
  let a := with_clock (1005 + one_hour)
             (snd (cacheImage env_ok photo None (fresh_world 1000))) in
  let b := with_clock (1005 + one_hour)
             (snd (urlToBase64 env_ok photo (fresh_world 1000))) in
  fetches (snd (urlToBase64 env_500 photo a)) = photo :: fetches (fresh_world 1000)
  /\ fst (urlToBase64 env_500 photo a)
     = match read_as_data_url env_500 jpeg with
       | Some s => Resolved s
       | None => Rejected ReaderError
       end
  /\ fetches (snd (cacheImage env_500 photo None b)) = photo :: fetches (fresh_world 1000)
  /\ (exists o, fst (cacheImage env_500 photo None b) = Resolved o
               /\ object_urls (snd (cacheImage env_500 photo None b)) !! o = Some jpeg).
Proof.
  apply (cacheImage_and_urlToBase64_share_the_store env_ok env_500 photo None
           (fresh_world 1000) 200 jpeg (1005 + one_hour));
    by vm_compute.
Defined.

(** X12. The two lookups agree, whatever the collaborators do: they
    leave the same store, and getCachedImage returns an object URL
    exactly when getCachedImageBlob returns a blob, the object URL being
    registered for that blob. *)
Theorem lookups_agree (env : Env) (u : string) (w : World) :
  images (snd (getCachedImage env u w)) = images (snd (getCachedImageBlob env u w))
  /\ match fst (getCachedImage env u w), fst (getCachedImageBlob env u w) with
     | Resolved (Some o), Resolved (Some b) =>
         object_urls (snd (getCachedImage env u w)) !! o = Some b
     | Resolved None, Resolved None => True
     | _, _ => False
     end.
Proof.
  run_method w; (split; [reflexivity|]); simpl;
    first [exact I | apply lookup_insert_eq].
Qed.

(** ** The hook and the component *)

(** X13. For a URL that is neither empty nor a blob: or data: URL, the
    effect of useCachedImage settles with isLoading false and cachedUrl
    set, to the object URL minted by cacheImage or, when cacheImage
    fell back, to the URL itself; so MultimodalPreview, which shows
    `cachedUrl || imageSrc`, always has a source to show.  With no URL
    the hook clears cachedUrl without touching the cache and the
    component shows its own source. *)
Theorem useCachedImage_settles_with_a_source
    (env : Env) (u : string) (mid : option string) (st : HookState) (w : World) :
  u <> "" -> String.prefix "blob:" u = false -> String.prefix "data:" u = false ->
  let r := useCachedImage env (Some u) mid st w in
  let shown := if cacheImage_fails env w u then u else object_url_of (next_url w) in
  isLoading (fst r) = false
  /\ cachedUrl (fst r) = Some shown
  /\ displayed_src (cachedUrl (fst r)) u = shown
  /\ snd r = snd (cacheImage env u mid w)
  /\ useCachedImage env None mid st w = (mkHookState None (isLoading st), w)
  /\ displayed_src None u = u.
Proof.
  intros Hne Hb Hd. cbv zeta.
  assert (Ht : truthy (Some u) = Some u) by (by destruct u).
  unfold useCachedImage. rewrite Ht, Hb, Hd. simpl.
  pose proof (cacheImage_outcome env u mid w) as Ho.
  destruct (cacheImage env u mid w) as [[c|e] w'] eqn:E; simpl in Ho; [|discriminate].
  injection Ho as ->. simpl.
  repeat split. unfold displayed_src.
  destruct (cacheImage_fails env w u); [by rewrite Ht | reflexivity].
Qed.

Lemma useCachedImage_settles_with_a_source_witness :
  let r := useCachedImage env_quota (Some photo) None (mkHookState None true)
             (fresh_world 1000) in
  let shown := if cacheImage_fails env_quota (fresh_world 1000) photo then photo
               else object_url_of (next_url (fresh_world 1000)) in
  isLoading (fst r) = false
  /\ cachedUrl (fst r) = Some shown
  /\ displayed_src (cachedUrl (fst r)) photo = shown
  /\ snd r = snd (cacheImage env_quota photo None (fresh_world 1000))
  /\ useCachedImage env_quota None None (mkHookState None true) (fresh_world 1000)
     = (mkHookState None (isLoading (mkHookState None true)), fresh_world 1000)
  /\ displayed_src None photo = photo.
Proof.
  apply (useCachedImage_settles_with_a_source env_quota photo None
           (mkHookState None true) (fresh_world 1000));
    [discriminate | reflexivity | reflexivity].
Defined.

(** ** init again *)

(** X14. A failed open is not memoised: after a call whose open failed
    the manager is still uninitialised and the store untouched, and the
    next call issues a new open request; when that one succeeds the
    manager is initialised with the handle of the second request. *)
Theorem failed_open_is_retried
    (env1 env2 : Env) (u : string) (mid : option string) (w : World) :
  isInitialized w = false -> open_ok env1 = false -> open_ok env2 = true ->
  let r1 := cacheImage env1 u mid w in
  let w2 := snd (cacheImage env2 u mid (snd r1)) in
  fst r1 = Resolved u
  /\ isInitialized (snd r1) = false
  /\ opens (snd r1) = S (opens w)
  /\ images (snd r1) = images w
  /\ fetches (snd r1) = fetches w
  /\ opens w2 = S (S (opens w))
  /\ isInitialized w2 = true
  /\ db w2 = Some (S (opens w)).
Proof.
  intros Hi Ho1 Ho2.
  assert (E1 : cacheImage env1 u mid w
               = (Resolved u,
                  mkWorld (images w) (db w) false (S (opens w)) (txs w)
                          (fetches w) (clock w) (object_urls w) (next_url w))).
  { run_method w; simplify_eq; reflexivity. }
  cbv zeta. rewrite E1. simpl. repeat (split; [reflexivity|]).
  clear E1. run_method w; simplify_eq; auto.
Qed.

Lemma failed_open_is_retried_witness :
  let r1 := cacheImage env_no_store photo None (fresh_world 1000) in
  let w2 := snd (cacheImage env_ok photo None (snd r1)) in
  fst r1 = Resolved photo
  /\ isInitialized (snd r1) = false
  /\ opens (snd r1) = S (opens (fresh_world 1000))
  /\ images (snd r1) = images (fresh_world 1000)
  /\ fetches (snd r1) = fetches (fresh_world 1000)
  /\ opens w2 = S (S (opens (fresh_world 1000)))
  /\ isInitialized w2 = true
  /\ db w2 = Some (S (opens (fresh_world 1000))).
Proof.
  apply (failed_open_is_retried env_no_store env_ok photo None (fresh_world 1000));
    reflexivity.
Defined.

Lemma sequential_inits_initialized n w :
  isInitialized w = true ->
  init_steps (sequential_inits n) (w, []) = (w, []).
Proof.
  intros Hi. induction n as [|n IH]; [reflexivity|].
  simpl. unfold init_steps in *. simpl. rewrite Hi. simpl. exact IH.
Qed.

(** X15. Calls of init that do not overlap open the store once: when
    each call is settled before the next one starts, any number of
    calls (at least one) on a new manager issues a single open request,
    whose handle is kept. *)
Theorem sequential_inits_open_once (n : nat) (t : Z) :
  let s := init_steps (sequential_inits (S n)) (fresh_world t, []) in
  opens (fst s) = 1%nat
  /\ db (fst s) = Some 0%nat
  /\ isInitialized (fst s) = true
  /\ snd s = [].
Proof.
  cbv zeta. simpl.
  change (init_steps (InitCalled :: OpenSettled true :: sequential_inits n)
                     (fresh_world t, []))
    with (init_steps (sequential_inits n)
            (mkWorld ∅ (Some 0%nat) true 1 0 [] t ∅ 0, [])).
  rewrite sequential_inits_initialized by reflexivity. by repeat split.
Qed.

Lemma init_step_invariant ev w q :
  handle_consistent w ->
  let s := init_step ev (w, q) in
  handle_consistent (fst s)
  /\ images (fst s) = images w
  /\ (isInitialized w = true ->
      isInitialized (fst s) = true /\ opens (fst s) = opens w)
  /\ (opens (fst s) <= S (opens w))%nat.
Proof.
  unfold handle_consistent, init_step. intros Hw. destruct w; simpl in *.
  destruct ev as [|ok]; simpl.
  - destruct isInitialized0; simpl; repeat split; auto; discriminate.
  - destruct q as [|r rest]; simpl; [repeat split; auto|].
    destruct ok; simpl; repeat split; eauto.
Qed.

(** X16. Under any interleaving of init calls and settlements of open
    requests: the store is not touched, the handle is present whenever
    isInitialized is set, and once it is set it stays set and no further
    open request is issued; at most one request is issued per event. *)
Theorem init_steps_keep_flag_and_handle
    (evs : list InitEvent) (w : World) (q : list nat) :
  handle_consistent w ->
  let s := init_steps evs (w, q) in
  handle_consistent (fst s)
  /\ images (fst s) = images w
  /\ (isInitialized w = true ->
      isInitialized (fst s) = true /\ opens (fst s) = opens w)
  /\ (opens (fst s) <= opens w + length evs)%nat.
Proof.
  revert w q. induction evs as [|ev rest IH]; intros w q Hw; simpl.
  - repeat split; auto. lia.
  - unfold init_steps. simpl. fold (init_steps rest (init_step ev (w, q))).
    destruct (init_step_invariant ev w q Hw) as (Hc & Hi & Hf & Ho).
    destruct (init_step ev (w, q)) as [w1 q1]. simpl in *.
    destruct (IH w1 q1 Hc) as (Hc' & Hi' & Hf' & Ho').
    split; [exact Hc'|]. split; [by rewrite Hi'|]. split.
    + intros Hini. destruct (Hf Hini) as [Hini1 Hop1].
      destruct (Hf' Hini1) as [Hini2 Hop2]. split; [done | by rewrite Hop2].
    + lia.
Qed.

Lemma init_steps_keep_flag_and_handle_witness :
  let s := init_steps [InitCalled; InitCalled; OpenSettled false; InitCalled;
                       OpenSettled true; OpenSettled true]
                      (fresh_world 1000, []) in
  handle_consistent (fst s)
  /\ images (fst s) = images (fresh_world 1000)
  /\ (isInitialized (fresh_world 1000) = true ->
      isInitialized (fst s) = true /\ opens (fst s) = opens (fresh_world 1000))
  /\ (opens (fst s) <= opens (fresh_world 1000)
                       + length [InitCalled; InitCalled; OpenSettled false; InitCalled;
                                 OpenSettled true; OpenSettled true])%nat.
Proof.
  apply (init_steps_keep_flag_and_handle
           [InitCalled; InitCalled; OpenSettled false; InitCalled;
            OpenSettled true; OpenSettled true]
           (fresh_world 1000) []).
  intros H. discriminate H.
Defined.

(** ** Failures that are not remembered *)

(** X17. A failed fetch is not remembered: when cacheImage reaches the
    fetch and the fetch fails, it resolves with the URL, writes no
    record, mints no object URL, and leaves the manager ready; the next
    cacheImage of that URL, whatever the time and the answers of the
    store, fetches again. *)
Theorem cacheImage_fetch_failure_is_not_cached
    (env1 env2 : Env) (u : string) (mid : option string) (w : World) (t : Z) :
  store_available env1 w = true -> lookup_hits env1 w u = false ->
  fetch_failed env1 u = true -> images w !! u = None ->
  let r1 := cacheImage env1 u mid w in
  let r2 := cacheImage env2 u mid (with_clock t (snd r1)) in
  fst r1 = Resolved u
  /\ images (snd r1) = images w
  /\ object_urls (snd r1) = object_urls w
  /\ fetches (snd r1) = u :: fetches w
  /\ fetches (snd r2) = u :: u :: fetches w.
Proof.
  intros Hs Hl Hf Hnone.
  assert (E : let r1 := cacheImage env1 u mid w in
              fst r1 = Resolved u
              /\ images (snd r1) = images w
              /\ object_urls (snd r1) = object_urls w
              /\ fetches (snd r1) = u :: fetches w
              /\ isInitialized (snd r1) = true
              /\ is_Some (db (snd r1))).
  { run_method w; simplify_eq; eauto 10. }
  destruct E as (E1 & E2 & E3 & E4 & E5 & [h E6]). cbv zeta.
  repeat (split; [assumption|]).
  rewrite <- E4.
  apply (cacheImage_miss_fetches_once env2 u mid (with_clock t (snd (cacheImage env1 u mid w)))).
  - unfold store_available; simpl. by rewrite E5, E6.
  - unfold lookup_hits; simpl. rewrite E2, Hnone. apply andb_false_r.
Qed.

Lemma cacheImage_fetch_failure_is_not_cached_witness :
  let r1 := cacheImage env_500 photo None (fresh_world 1000) in
  let r2 := cacheImage env_ok photo None (with_clock 2000 (snd r1)) in
  fst r1 = Resolved photo
  /\ images (snd r1) = images (fresh_world 1000)
  /\ object_urls (snd r1) = object_urls (fresh_world 1000)
  /\ fetches (snd r1) = photo :: fetches (fresh_world 1000)
  /\ fetches (snd r2) = photo :: photo :: fetches (fresh_world 1000).
Proof.
  apply (cacheImage_fetch_failure_is_not_cached env_500 env_ok photo None
           (fresh_world 1000) 2000);
    reflexivity.
Defined.

(** X18. A failure of the FileReader comes after the put: when
    urlToBase64 has fetched and stored the image and the conversion
    fails, the promise rejects with the error of the reader but the
    record is in the store, so a later urlToBase64 within CACHE_EXPIRY
    converts the stored blob without fetching. *)
Theorem reader_failure_keeps_the_record
    (env1 env2 : Env) (u : string) (w : World) (status : Z) (body : Blob) (t : Z) :
  images w !! u = None ->
  store_available env1 w = true -> tx_ok env1 = true -> put_ok env1 = true ->
  net env1 u = NetResponseOf status body -> response_ok status = true ->
  read_as_data_url env1 body = None ->
  tx_ok env2 = true -> get_ok env2 = true ->
  t - (clock w + net_delay env1) < CACHE_EXPIRY ->
  let r1 := urlToBase64 env1 u w in
  let r2 := urlToBase64 env2 u (with_clock t (snd r1)) in
  fst r1 = Rejected ReaderError
  /\ images (snd r1) !! u = Some (mkCachedImage u body (clock w + net_delay env1) None)
  /\ fetches (snd r2) = u :: fetches w
  /\ fst r2 = match read_as_data_url env2 body with
              | Some s => Resolved s
              | None => Rejected ReaderError
              end.
Proof.
  intros Hnone Hs Ht Hp Hn Hr Hrd Ht2 Hg2 Httl r1 r2.
  assert (Hmiss : lookup_hits env1 w u = false).
  { unfold lookup_hits. rewrite Hnone. apply andb_false_r. }
  destruct (urlToBase64_miss_stores env1 u w status body Hs Hmiss Hn Hr Ht Hp)
    as (Hr1 & Hf1 & Hi1 & _).
  fold r1 in Hr1, Hf1, Hi1. rewrite Hrd in Hr1.
  set (c := mkCachedImage u body (clock w + net_delay env1) None) in *.
  assert (Hc : images (with_clock t (snd r1)) !! u = Some c).
  { simpl. rewrite Hi1. apply lookup_insert_eq. }
  assert (Hready : store_available env2 (with_clock t (snd r1)) = true).
  { unfold r1. clear -Hs. run_method w; simplify_eq; auto. }
  assert (Hv : still_valid (clock (with_clock t (snd r1))) c = true).
  { by apply still_valid_true. }
  destruct (urlToBase64_hit env2 u _ c Hready Ht2 Hg2 Hc Hv) as (Hr2 & Hf2 & _).
  fold r2 in Hr2, Hf2. simpl in Hf2.
  split; [exact Hr1|]. split; [by rewrite Hi1, lookup_insert_eq|].
  split; [by rewrite Hf2|exact Hr2].
Qed.

Lemma reader_failure_keeps_the_record_witness :
  let r1 := urlToBase64 env_unreadable photo (fresh_world 1000) in
  let r2 := urlToBase64 env_500 photo (with_clock (1005 + one_hour) (snd r1)) in
  fst r1 = Rejected ReaderError
  /\ images (snd r1) !! photo
     = Some (mkCachedImage photo jpeg (clock (fresh_world 1000) + net_delay env_unreadable)
                           None)
  /\ fetches (snd r2) = photo :: fetches (fresh_world 1000)
  /\ fst r2 = match read_as_data_url env_500 jpeg with
              | Some s => Resolved s
              | None => Rejected ReaderError
              end.
Proof.
  apply (reader_failure_keeps_the_record env_unreadable env_500 photo
           (fresh_world 1000) 200 jpeg (1005 + one_hour));
    by vm_compute.
Defined.

(** ** One boundary for the two expiries *)

(** X19. The sweep and the lookups draw the line at the same age: with
    the store answering, clearExpiredCache deletes the record of a URL
    exactly when a lookup at that time returns nothing for it (and
    deletes it lazily). *)
Theorem sweep_and_lookup_agree_on_expiry
    (env : Env) (w : World) (k : string) (c : CachedImage) :
  store_available env w = true ->
  tx_ok env = true -> get_ok env = true -> del_ok env = true ->
  images w !! k = Some c ->
  (images (snd (clearExpiredCache env w)) !! k = None
   <-> fst (getCachedImage env k w) = Resolved None)
  /\ (images (snd (clearExpiredCache env w)) !! k = None
      <-> images (snd (getCachedImage env k w)) !! k = None).
Proof.
  intros Hs Ht Hg Hd Hk.
  rewrite (clearExpiredCache_images env w Hs Ht Hd), sweep_lookup, Hk.
  assert (E : fst (getCachedImage env k w)
              = Resolved (if still_valid (clock w) c
                          then Some (object_url_of (next_url w)) else None)
              /\ images (snd (getCachedImage env k w)) !! k
                 = if still_valid (clock w) c then Some c else None).
  { split; run_method w; simplify_eq; simpl; rewrite ?lookup_delete_eq; auto. }
  destruct E as [-> ->].
  assert (Hb : expired_at (clock w) c = negb (still_valid (clock w) c)).
  { unfold expired_at, still_valid. rewrite Z.leb_antisym. reflexivity. }
  rewrite Hb. by destruct (still_valid (clock w) c).
Qed.

Lemma sweep_and_lookup_agree_on_expiry_witness :
  (images (snd (clearExpiredCache env_ok mixed_world)) !! photo = None
   <-> fst (getCachedImage env_ok photo mixed_world) = Resolved None)
  /\ (images (snd (clearExpiredCache env_ok mixed_world)) !! photo = None
      <-> images (snd (getCachedImage env_ok photo mixed_world)) !! photo = None).
Proof.
  apply (sweep_and_lookup_agree_on_expiry env_ok mixed_world photo stale_entry);
    reflexivity.
Defined.
